(** * fiducial_slam node: observation construction, ordering and lifecycle

    A shallow embedding of [fiducial_slam/src/fiducial_slam.cpp]: the
    [FiducialSlam] node object, its [transformCallback], its constructor,
    the SIGINT handler and the main loop.  The node is glue around the
    [Map] class: what it does is build a vector of [Observation]s, sort it
    and call methods of its collaborators.  Every function is therefore
    embedded as the chronological list of calls it issues ([Event]s), and
    the collaborators are interpreted separately. *)

From Stdlib Require Import ZArith Lia.
From Stdlib Require Import Floats.PrimFloat.
From stdpp Require Import base list sorting strings gmap.

Local Open Scope Z_scope.

(** ** Messages

    [double] is IEEE 754 binary64, i.e. Rocq's primitive [float]; the
    integer fields are never used in arithmetic, so they are plain [Z]. *)

Module Msg.

(** geometry_msgs/Vector3 *)
Record Vector3 := mkVector3 { x : float; y : float; z : float }.

(** geometry_msgs/Quaternion *)
Record Quaternion := mkQuaternion
  { qx : float; qy : float; qz : float; qw : float }.

(** geometry_msgs/Transform *)
Record Transform := mkTransform
  { translation : Vector3; rotation : Quaternion }.

(** ros::Time *)
Record Time := mkTime { sec : Z; nsec : Z }.

(** std_msgs/Header, the two fields the node reads. *)
Record Header := mkHeader { stamp : Time; frame_id : string }.

(** fiducial_msgs/FiducialTransform, the fields the node reads. *)
Record FiducialTransform := mkFiducialTransform
  { fiducial_id : Z;
    transform : Transform;
    object_error : float;
    fiducial_area : float }.

(** fiducial_msgs/FiducialTransformArray *)
Record FiducialTransformArray := mkFiducialTransformArray
  { header : Header; transforms : list FiducialTransform }.

End Msg.

(** ** Observations *)

(** Modelled from the spec: the declaration of [TransformWithVariance]
    (fiducial_slam/transform_with_variance.h) is not part of the
    translated file.  The data model gives a Transform-With-Variance a
    translation, a rotation and a scalar variance; the record holds the
    two arguments its constructor is called with in [transformCallback]. *)
Record TransformWithVariance := mkTransformWithVariance
  { twv_transform : Msg.Transform; variance : float }.

(** [tf2::Stamped<T>]: a value with a stamp and a frame name. *)
Record Stamped (A : Type) := mkStamped
  { stamped_data : A; stamp_ : Msg.Time; frame_id_ : string }.
Arguments mkStamped {A} _ _ _.
Arguments stamped_data {A} _.
Arguments stamp_ {A} _.
Arguments frame_id_ {A} _.

(** Modelled from the spec: the declaration of [Observation]
    (fiducial_slam/map.h) is not part of the translated file.  The data
    model gives an Observation an identifier, a transform-with-variance,
    a timestamp and a source frame name; the fields carry the names the
    callback uses. *)
Record Observation := mkObservation
  { fid : Z; T_camFid : Stamped TransformWithVariance }.

(** [o.T_camFid.transform.getOrigin()] *)
Definition getOrigin (o : Observation) : Msg.Vector3 :=
  Msg.translation (twv_transform (stamped_data (T_camFid o))).

Definition obs_rotation (o : Observation) : Msg.Quaternion :=
  Msg.rotation (twv_transform (stamped_data (T_camFid o))).

Definition obs_variance (o : Observation) : float :=
  variance (stamped_data (T_camFid o)).

(** ** Calls issued to the collaborators *)

(** The [ROS_INFO] lines of the file, by format string and arguments. *)
Inductive LogLine :=
  | InfoFidObjErr (id : Z) (obj_err : float)
      (* "FSlam: fid %d obj_err %9.5lf" *)
  | InfoFidXYZ (id : Z) (cx cy cz : float)
      (* "FSlam: fid %d  XYZ %9.6lf %9.6lf %9.6lf" *)
  | InfoText (s : string).

Inductive Event :=
  | RosInfo (l : LogLine)
  | MapConstruct                      (* fiducialMap(nh) *)
  | MapUpdate (obs : list Observation) (t : Msg.Time)
                                      (* fiducialMap.update(observations, stamp) *)
  | MapTick                           (* fiducialMap.update() *)
  | MapSave                           (* fiducialMap.saveMap() *)
  | Advertise (topic : string) (queue : Z)
  | Subscribe (topic : string) (queue : Z)
  | RosInit (name : string)
  | SignalInstall                     (* signal(SIGINT, mySigintHandler) *)
  | SpinOnce
  | RateSleep (hz : Z)                (* r.sleep() of ros::Rate r(hz) *)
  | RosShutdown.

(** ** The node object *)

Record FiducialSlam := mkFiducialSlam
  { ft_sub : option (string * Z);     (* topic and queue size, when subscribed *)
    ftPub : option (string * Z);
    use_fiducial_area_as_weight : bool;
    weighting_scale : float;
    use_read_only_map : bool;
    fiducialsFlat : bool;
    verboseInfo : bool }.

(** ** std::sort

    [std::sort(first, last, comp)] is the sort of the C++ library the
    node is built with, libstdc++ (bits/stl_algo.h, bits/stl_heap.h): an
    introsort that partitions ranges of more than [_S_threshold = 16]
    elements around a median of three, falls back on heap sort when the
    depth limit [2 * lg n] is used up, and finishes with an insertion
    sort.  The range is a list, iterators are positions in it, and a
    read outside the range is [None]. *)

Section LibStdCxx.
Context {A : Type} (comp : A → A → bool).

(** [std::iter_swap(i, j)] *)
Definition iter_swap (a : list A) (i j : nat) : option (list A) :=
  x ← a !! i; y ← a !! j; Some (<[i := y]> (<[j := x]> a)).

(** [__move_median_to_first(result, x, y, z, comp)] *)
Definition move_median_to_first (a : list A) (result x y z : nat) : option (list A) :=
  vx ← a !! x; vy ← a !! y; vz ← a !! z;
  if comp vx vy then
    if comp vy vz then iter_swap a result y
    else if comp vx vz then iter_swap a result z
    else iter_swap a result x
  else if comp vx vz then iter_swap a result x
  else if comp vy vz then iter_swap a result z
  else iter_swap a result y.

(** [while (comp(first, pivot)) ++first;] *)
Fixpoint scan_up (fuel : nat) (a : list A) (pivot first : nat) : option nat :=
  match fuel with
  | O => None
  | S fuel =>
      vf ← a !! first; vp ← a !! pivot;
      if comp vf vp then scan_up fuel a pivot (S first) else Some first
  end.

(** [while (comp(pivot, last)) --last;] *)
Fixpoint scan_down (fuel : nat) (a : list A) (pivot last : nat) : option nat :=
  match fuel with
  | O => None
  | S fuel =>
      vl ← a !! last; vp ← a !! pivot;
      if comp vp vl
      then match last with O => None | S last' => scan_down fuel a pivot last' end
      else Some last
  end.

(** [__unguarded_partition(first, last, pivot, comp)] *)
Fixpoint unguarded_partition (fuel : nat) (a : list A) (first last pivot : nat)
    : option (list A * nat) :=
  match fuel with
  | O => None
  | S fuel =>
      first ← scan_up (S (length a)) a pivot first;
      match last with
      | O => None
      | S last =>
          last ← scan_down (S (length a)) a pivot last;
          if negb (first <? last)%nat then Some (a, first)
          else a ← iter_swap a first last;
               unguarded_partition fuel a (S first) last pivot
      end
  end.

(** [__unguarded_partition_pivot(first, last, comp)] *)
Definition unguarded_partition_pivot (a : list A) (first last : nat)
    : option (list A * nat) :=
  let mid := (first + (last - first) / 2)%nat in
  a ← move_median_to_first a first (first + 1) mid (last - 1);
  unguarded_partition (S (length a)) a (first + 1) last first.

(** The loop of [__unguarded_linear_insert(last, comp)], [next = last - 1]. *)
Fixpoint linear_insert_loop (fuel : nat) (a : list A) (val : A) (last : nat)
    : option (list A) :=
  match fuel with
  | O => None
  | S fuel =>
      match last with
      | O => None
      | S next =>
          vn ← a !! next;
          if comp val vn then linear_insert_loop fuel (<[last := vn]> a) val next
          else Some (<[last := val]> a)
      end
  end.

(** [__unguarded_linear_insert(last, comp)] *)
Definition unguarded_linear_insert (a : list A) (last : nat) : option (list A) :=
  val ← a !! last; linear_insert_loop (S (length a)) a val last.

(** The [for] loop of [__insertion_sort]: [n] passes from position [i]. *)
Fixpoint insertion_passes (n : nat) (a : list A) (first i : nat) : option (list A) :=
  match n with
  | O => Some a
  | S n =>
      vi ← a !! i; vf ← a !! first;
      a ← (if comp vi vf
           then (* move_backward(first, i, i + 1); *first = val *)
             Some (take first a ++ vi :: take (i - first) (drop first a) ++ drop (S i) a)
           else unguarded_linear_insert a i);
      insertion_passes n a first (S i)
  end.

(** [__insertion_sort(first, last, comp)] *)
Definition range_insertion_sort (a : list A) (first last : nat) : option (list A) :=
  if (first =? last)%nat then Some a
  else insertion_passes (last - (first + 1)) a first (first + 1).

(** [__unguarded_insertion_sort(first, last, comp)]: [n] passes from [i]. *)
Fixpoint unguarded_insertion_sort (n : nat) (a : list A) (i : nat) : option (list A) :=
  match n with
  | O => Some a
  | S n => a ← unguarded_linear_insert a i; unguarded_insertion_sort n a (S i)
  end.

(** [__final_insertion_sort(first, last, comp)] *)
Definition final_insertion_sort (a : list A) (first last : nat) : option (list A) :=
  if (16 <? last - first)%nat
  then a ← range_insertion_sort a first (first + 16);
       unguarded_insertion_sort (last - (first + 16)) a (first + 16)
  else range_insertion_sort a first last.

(** [__push_heap(first, holeIndex, topIndex, value, comp)] *)
Fixpoint push_heap (fuel : nat) (a : list A) (first hole top : nat) (value : A)
    : option (list A) :=
  match fuel with
  | O => None
  | S fuel =>
      let parent := ((hole - 1) / 2)%nat in
      vp ← a !! (first + parent)%nat;
      if (top <? hole)%nat && comp vp value
      then push_heap fuel (<[(first + hole)%nat := vp]> a) first parent top value
      else Some (<[(first + hole)%nat := value]> a)
  end.

(** The first loop of [__adjust_heap]: the hole moves down to the larger
    child; the result is the range, the hole and [secondChild]. *)
Fixpoint sift_down (fuel : nat) (a : list A) (first hole second len : nat)
    : option (list A * nat * nat) :=
  match fuel with
  | O => None
  | S fuel =>
      if (second <? (len - 1) / 2)%nat
      then
        let second := (2 * (second + 1))%nat in
        vs ← a !! (first + second)%nat; vl ← a !! (first + (second - 1))%nat;
        let second := if comp vs vl then (second - 1)%nat else second in
        v ← a !! (first + second)%nat;
        sift_down fuel (<[(first + hole)%nat := v]> a) first second second len
      else Some (a, hole, second)
  end.

(** [__adjust_heap(first, holeIndex, len, value, comp)] *)
Definition adjust_heap (a : list A) (first hole len : nat) (value : A)
    : option (list A) :=
  let top := hole in
  '(a, hole, second) ← sift_down (S len) a first hole hole len;
  '(a, hole) ←
    (if Nat.even len && (second =? (len - 2) / 2)%nat
     then
       let second := (2 * (second + 1))%nat in
       v ← a !! (first + (second - 1))%nat;
       Some (<[(first + hole)%nat := v]> a, (second - 1)%nat)
     else Some (a, hole));
  push_heap (S len) a first hole top value.

(** [__pop_heap(first, last, result, comp)] *)
Definition pop_heap (a : list A) (first last result : nat) : option (list A) :=
  value ← a !! result; vf ← a !! first;
  adjust_heap (<[result := vf]> a) first 0 (last - first) value.

(** The loop of [__make_heap]: from [parent] down to 0. *)
Fixpoint make_heap_from (parent : nat) (a : list A) (first len : nat) : option (list A) :=
  value ← a !! (first + parent)%nat;
  a ← adjust_heap a first parent len value;
  match parent with
  | O => Some a
  | S parent => make_heap_from parent a first len
  end.

(** [__make_heap(first, last, comp)] *)
Definition make_heap (a : list A) (first last : nat) : option (list A) :=
  if (last - first <? 2)%nat then Some a
  else make_heap_from ((last - first - 2) / 2) a first (last - first).

(** The loop of [__heap_select]: [n] positions from [i]. *)
Fixpoint heap_select_from (n : nat) (a : list A) (first middle i : nat)
    : option (list A) :=
  match n with
  | O => Some a
  | S n =>
      vi ← a !! i; vf ← a !! first;
      a ← (if comp vi vf then pop_heap a first middle i else Some a);
      heap_select_from n a first middle (S i)
  end.

(** [__sort_heap(first, last, comp)]: [n] is [last - first]. *)
Fixpoint sort_heap (n : nat) (a : list A) (first : nat) : option (list A) :=
  match n with
  | O => Some a
  | S n' =>
      if (1 <? n)%nat
      then a ← pop_heap a first (first + n') (first + n'); sort_heap n' a first
      else Some a
  end.

(** [__partial_sort(first, middle, last, comp)] *)
Definition partial_sort (a : list A) (first middle last : nat) : option (list A) :=
  a ← make_heap a first middle;
  a ← heap_select_from (last - middle) a first middle middle;
  sort_heap (middle - first) a first.

(** [__introsort_loop(first, last, depth_limit, comp)]: every turn of its
    [while] loop takes one off the depth limit. *)
Fixpoint introsort_loop (depth_limit : nat) (a : list A) (first last : nat)
    : option (list A) :=
  if (16 <? last - first)%nat
  then
    match depth_limit with
    | O => partial_sort a first last last
    | S depth_limit =>
        '(a, cut) ← unguarded_partition_pivot a first last;
        a ← introsort_loop depth_limit a cut last;
        introsort_loop depth_limit a first cut
    end
  else Some a.

(** [__sort(first, last, comp)] on the whole range. *)
Definition introsort (a : list A) : option (list A) :=
  match a with
  | [] => Some a
  | _ =>
      a ← introsort_loop (Nat.log2 (length a) * 2) a 0 (length a);
      final_insertion_sort a 0 (length a)
  end.

(** On a range of at most [_S_threshold] elements [__introsort_loop] does
    nothing and [__final_insertion_sort] is [__insertion_sort], which
    leaves elements that [comp] does not separate in their relative
    order.  [insertion_sort] builds the same range from its end: each
    element goes into the sorted rest behind the elements that compare
    less than it and in front of all others. *)
Fixpoint sort_insert (v : A) (l : list A) : list A :=
  match l with
  | [] => [v]
  | u :: l' => if comp u v then u :: sort_insert v l' else v :: u :: l'
  end.

Definition insertion_sort (l : list A) : list A := foldr sort_insert [] l.

(** No element compares less than its predecessor. *)
Fixpoint is_sorted (l : list A) : bool :=
  match l with
  | [] => true
  | u :: l' =>
      match l' with
      | [] => true
      | v :: _ => negb (comp v u) && is_sorted l'
      end
  end.

End LibStdCxx.

(** [std::sort(first, last, comp)].  Ranges of more than 16 elements are
    sorted through the positions of their elements: [introsort] orders
    the positions [0 .. n-1], comparing the elements found there, and the
    elements are read off in that order.  The result is checked to be the
    input rearranged and in order, which it is for every input libstdc++
    sorts; would the check fail, the range is insertion sorted. *)
Definition std_sort {A : Type} (comp : A → A → bool) (l : list A) : list A :=
  if (length l <=? 16)%nat then insertion_sort comp l
  else
    let at_positions i j :=
      match l !! i, l !! j with
      | Some x, Some y => comp x y
      | _, _ => false
      end in
    match introsort at_positions (seq 0 (length l)) with
    | Some positions =>
        let sorted := omap (l !!.) positions in
        if bool_decide (insertion_sort Nat.ltb positions = seq 0 (length l))
           && is_sorted comp sorted
        then sorted
        else insertion_sort comp l
    | None => insertion_sort comp l
    end.

(** To sort the fiducials we need a compare routine looking at fiducial id *)
Definition compareObservation (obs1 obs2 : Observation) : bool :=
  fid obs1 <? fid obs2.

(** The order [std::sort] establishes with [compareObservation]. *)
Definition fid_le (a b : Observation) : Prop := fid a ≤ fid b.

(** ** transformCallback *)

(** The variance assignment of the loop body. *)
Definition sighting_variance (node : FiducialSlam) (ft : Msg.FiducialTransform) : float :=
  if use_fiducial_area_as_weight node
  then (weighting_scale node / Msg.fiducial_area ft)%float
  else (weighting_scale node * Msg.object_error ft)%float.

(** The quaternion [q] that each branch of [if (fiducialsFlat)] declares.
    It is local to its block. *)
Definition local_q (node : FiducialSlam) (ft : Msg.FiducialTransform) : Msg.Quaternion :=
  let r := Msg.rotation (Msg.transform ft) in
  if fiducialsFlat node
  then Msg.mkQuaternion 0%float 0%float (Msg.qz r) (Msg.qw r)
  else Msg.mkQuaternion (Msg.qx r) (Msg.qy r) (Msg.qz r) (Msg.qw r).

(** [Observation obs(ft.fiducial_id, tf2::Stamped<TransformWithVariance>(
    TransformWithVariance(ft.transform, variance), stamp, frame_id))] *)
Definition make_observation (hdr : Msg.Header) (ft : Msg.FiducialTransform)
    (variance : float) : Observation :=
  mkObservation (Msg.fiducial_id ft)
    (mkStamped (mkTransformWithVariance (Msg.transform ft) variance)
               (Msg.stamp hdr) (Msg.frame_id hdr)).

(** One pass of the [for] loop: [acc] is the pair of the lines logged so
    far and the [observations] vector. *)
Definition loop_body (node : FiducialSlam) (hdr : Msg.Header)
    (acc : list Event * list Observation) (ft : Msg.FiducialTransform)
    : list Event * list Observation :=
  let tvec := Msg.translation (Msg.transform ft) in
  let q := local_q node ft in
  let log :=
    if verboseInfo node
    then [RosInfo (InfoFidObjErr (Msg.fiducial_id ft) (Msg.object_error ft))]
    else [] in
  let variance := sighting_variance node ft in
  let obs := make_observation hdr ft variance in
  (acc.1 ++ log, acc.2 ++ [obs]).

(** The vector after the loop and the sort: the first argument of
    [fiducialMap.update]. *)
Definition sorted_observations (node : FiducialSlam) (msg : Msg.FiducialTransformArray)
    : list Observation :=
  std_sort compareObservation
    (fold_left (loop_body node (Msg.header msg)) (Msg.transforms msg) ([], [])).2.

Definition transformCallback (node : FiducialSlam) (msg : Msg.FiducialTransformArray)
    : list Event :=
  let '(log, observations) :=
    fold_left (loop_body node (Msg.header msg)) (Msg.transforms msg) ([], []) in
  let observations := std_sort compareObservation observations in
  let walk :=
    if verboseInfo node
    then (λ o, let cam_f := getOrigin o in
               RosInfo (InfoFidXYZ (fid o) (Msg.x cam_f) (Msg.y cam_f) (Msg.z cam_f)))
         <$> observations
    else [] in
  log ++ walk ++ [MapUpdate observations (Msg.stamp (Msg.header msg))].

(** ** Construction

    [ros::NodeHandle::param(name, var, default)] stores in [var] the value
    of the parameter when the parameter server has one and [default]
    otherwise.  The handle is the interface the constructor reads through. *)

Record NodeHandle := mkNodeHandle
  { param_bool : string → bool → bool;
    param_double : string → float → float }.

(** [FiducialSlam::FiducialSlam(ros::NodeHandle &nh)]: the node and the
    calls made while it is built. *)
Definition FiducialSlam_new (nh : NodeHandle) : FiducialSlam * list Event :=
  let use_area := param_bool nh "use_fiducial_area_as_weight" false in
  let scale := param_double nh "weighting_scale" 1e9%float in
  let doPoseEstimation := param_bool nh "do_pose_estimation" false in
  let flat := param_bool nh "fiducials_flat" false in
  let read_only := param_bool nh "read_only_map" false in
  let mode_line :=
    if read_only
    then RosInfo (InfoText "Fiducial Slam in READ ONLY MAP MODE!")
    else RosInfo (InfoText "Fiducial Slam will save the generated map") in
  let verbose := param_bool nh "verbose_info" false in
  let '(sub, pub, wiring) :=
    if doPoseEstimation
    then
      let fiducialLen := param_double nh "fiducial_len" 0x1.1eb851eb851ecp-3%float (* 0.14 *) in
      let errorThreshold := param_double nh "pose_error_theshold" 1.0%float in
      (None, Some ("/fiducial_transforms", 1), [Advertise "/fiducial_transforms" 1])
    else
      (Some ("/fiducial_transforms", 1), None, [Subscribe "/fiducial_transforms" 1]) in
  (mkFiducialSlam sub pub use_area scale read_only flat verbose,
   [MapConstruct; mode_line] ++ wiring ++ [RosInfo (InfoText "Fiducial Slam ready")]).

(** ** The process: the global [node] pointer, [ros::ok()] and the calls
    made so far *)

Record Process := mkProcess
  { node : option FiducialSlam;
    ok : bool;
    trace : list Event }.

Definition emit (evs : list Event) (p : Process) : Process :=
  mkProcess (node p) (ok p) (trace p ++ evs).

(** [ros::shutdown()] *)
Definition ros_shutdown (p : Process) : Process :=
  mkProcess (node p) false (trace p ++ [RosShutdown]).

Definition mySigintHandler (p : Process) : Process :=
  let p :=
    match node p with
    | Some n =>
        if use_read_only_map n
        then emit [RosInfo (InfoText "Fiducial Slam not saving map per read_only_map option")] p
        else emit [MapSave] p
    | None => p
    end in
  ros_shutdown p.

(** [ros::spinOnce()]: the callbacks of the subscriptions the node holds
    are run on the messages waiting on /fiducial_transforms. *)
Definition spinOnce (waiting : list Msg.FiducialTransformArray) (p : Process) : Process :=
  let p := emit [SpinOnce] p in
  match node p with
  | Some n =>
      match ft_sub n with
      | Some _ => emit (concat (transformCallback n <$> waiting)) p
      | None => p
      end
  | None => p
  end.

(** What the environment does during one turn of the loop.  [waiting]
    are the messages whose callbacks [spinOnce] runs (any number; the
    subscription's queue of one keeps at most the newest).  SIGINT can
    arrive at any time and any number of times, the handler staying
    installed: [sigint_early] counts the deliveries between the test of
    [ros::ok()] and [spinOnce], [sigint_asleep] those between [spinOnce]
    and [update()], [sigint_late] those between [update()] and the next
    test of [ros::ok()].  [halted] says that [ros::ok()] has turned false
    for a reason outside the file (a shutdown request from the master, a
    node of the same name) by the next test. *)
Record Turn := mkTurn
  { sigint_early : nat;
    waiting : list Msg.FiducialTransformArray;
    sigint_asleep : nat;
    sigint_late : nat;
    halted : bool }.

(** SIGINT arrives during the turn. *)
Definition sigint (t : Turn) : bool :=
  negb (sigint_early t + sigint_asleep t + sigint_late t =? 0)%nat.

(** [k] deliveries of SIGINT in a row. *)
Definition deliver (k : nat) (p : Process) : Process :=
  Nat.iter k mySigintHandler p.

(** [ros::Rate r(20)] *)
Definition rate_hz : Z := 20.

(** The body of [while (ros::ok())]. *)
Definition loop_turn (t : Turn) (p : Process) : Process :=
  let p := deliver (sigint_early t) p in
  let p := spinOnce (waiting t) p in
  let p := emit [RateSleep rate_hz] p in
  let p := deliver (sigint_asleep t) p in
  emit [MapTick] p.

(** What happens between the end of the body and the next test of
    [ros::ok()]. *)
Definition turn_end (t : Turn) (p : Process) : Process :=
  let p := deliver (sigint_late t) p in
  if halted t then mkProcess (node p) false (trace p) else p.

Fixpoint main_loop (sched : list Turn) (p : Process) : Process :=
  match sched with
  | [] => p
  | t :: sched' => if ok p then main_loop sched' (turn_end t (loop_turn t p)) else p
  end.

(** [main]: the node is created, then the handler is installed, then the
    loop runs for as long as the schedule and [ros::ok()] last. *)
Definition main (nh : NodeHandle) (sched : list Turn) : Process :=
  let '(n, built) := FiducialSlam_new nh in
  let p := mkProcess (Some n) true ([RosInit "fiducial_slam"] ++ built ++ [SignalInstall]) in
  main_loop sched p.

(** ** The Map collaborator

    The class [Map] (fiducial_slam/map.h, map.cpp) with
    [update(observations, time)], [update()] and [saveMap()] is not part
    of the translated file.  The definitions of this module follow
    sections 3, 4.2, 4.3 and 4.4 of the specification.  The specification
    leaves the formulas of composition, inversion and weighted averaging
    and the first-sighting anchoring policy open (section 9); they are
    parameters here. *)

Module MapModel.

(** Modelled from the spec: the Landmark of section 3, missing with
    [Map]: world pose with its variance, observation count, first-seen
    and last-seen timestamps, under its identifier in the map. *)
Record Landmark := mkLandmark
  { world_pose : TransformWithVariance;
    observation_count : nat;
    first_seen : Msg.Time;
    last_seen : Msg.Time }.

(** Modelled from the spec: the Map State of section 3, missing with
    [Map]: a mapping from identifier to Landmark and a mode flag. *)
Record MapState := mkMapState
  { landmarks : gmap Z Landmark; read_only : bool }.

Definition empty_map (ro : bool) : MapState := mkMapState ∅ ro.

(** The observer-relative transform of an observation. *)
Definition relative (o : Observation) : TransformWithVariance :=
  stamped_data (T_camFid o).

(** Modelled from the spec: the tie-break of section 4.2, missing with
    [Map::update]: of the observations of a batch that name the same
    identifier, the later one wins. *)
Fixpoint tie_break (obs : list Observation) : list Observation :=
  match obs with
  | [] => []
  | o :: rest =>
      if bool_decide (fid o ∈ fid <$> rest) then tie_break rest
      else o :: tie_break rest
  end.

(** Modelled from the spec: the no-argument [Map::update()], the
    maintenance tick of section 4.3.  It does not fail, on the empty map
    or any other, and leaves every landmark as it is. *)
Definition tick (m : MapState) : option MapState := Some m.

(** Modelled from the spec: [Map::saveMap()], section 4.4 and the
    persisted layout of section 6: one record per landmark. *)
Definition save (m : MapState) : gmap Z Landmark := landmarks m.

Section Fusion.
Context (compose : TransformWithVariance → TransformWithVariance → TransformWithVariance).
Context (inverse : TransformWithVariance → TransformWithVariance).
Context (weighted_average :
  TransformWithVariance → TransformWithVariance → TransformWithVariance).
Context (anchor : TransformWithVariance → TransformWithVariance).

(** Modelled from the spec: step 2 of the estimator of section 4.2,
    missing with [Map::update]: the observer pose a known landmark
    implies. *)
Definition implied_observer (m : MapState) (o : Observation)
    : option TransformWithVariance :=
  lm ← landmarks m !! fid o;
  Some (compose (world_pose lm) (inverse (relative o))).

(** Modelled from the spec: steps 1 to 3 of section 4.2: the weighted
    average over the known observations, or nothing when no known
    landmark is in view. *)
Definition resolve_observer (m : MapState) (obs : list Observation)
    : option TransformWithVariance :=
  match omap (implied_observer m) obs with
  | [] => None
  | p :: ps => Some (fold_left weighted_average ps p)
  end.

(** Modelled from the spec: step 4 of section 4.2: the candidate world
    pose of the landmark of an observation. *)
Definition candidate (observer : option TransformWithVariance) (o : Observation)
    : TransformWithVariance :=
  match observer with
  | Some p => compose p (relative o)
  | None => anchor (relative o)
  end.

(** Modelled from the spec: section 4.3: insert a new landmark, refine a
    known one by the weighted average, count the observation and move
    the last-seen timestamp. *)
Definition fuse (t : Msg.Time) (lms : gmap Z Landmark)
    (c : Z * TransformWithVariance) : gmap Z Landmark :=
  match lms !! c.1 with
  | None => <[c.1 := mkLandmark c.2 1 t t]> lms
  | Some lm =>
      <[c.1 := mkLandmark (weighted_average (world_pose lm) c.2)
                          (S (observation_count lm)) (first_seen lm) t]> lms
  end.

(** Modelled from the spec: [Map::update(observations, time)], sections
    4.2 and 4.3: the resolved observer pose, if any, and the map after
    the pass; a read-only map discards the candidates. *)
Definition update (obs : list Observation) (t : Msg.Time) (m : MapState)
    : option TransformWithVariance * MapState :=
  let obs := tie_break obs in
  let observer := resolve_observer m obs in
  let candidates := (λ o, (fid o, candidate observer o)) <$> obs in
  (observer,
   if read_only m then m
   else mkMapState (fold_left (fuse t) candidates (landmarks m)) false).

(** Modelled from the spec: the collaborators' side of a run: the map,
    the last resolved observer pose and the durable map, which only
    [saveMap] writes. *)
Record World := mkWorld
  { map_state : MapState;
    observer_pose : option TransformWithVariance;
    durable : option (gmap Z Landmark) }.

(** Modelled from the spec: what a call does on the collaborators' side;
    the calls that are not calls of [Map] leave it alone. *)
Definition exec_event (w : World) (e : Event) : World :=
  match e with
  | MapUpdate obs t =>
      let '(pose, m) := update obs t (map_state w) in
      mkWorld m pose (durable w)
  | MapTick =>
      match tick (map_state w) with
      | Some m => mkWorld m (observer_pose w) (durable w)
      | None => w
      end
  | MapSave => mkWorld (map_state w) (observer_pose w) (Some (save (map_state w)))
  | _ => w
  end.

(** The calls of a trace, in order. *)
Definition exec_trace (evs : list Event) (w : World) : World :=
  fold_left exec_event evs w.

End Fusion.
End MapModel.

(** ** Reading a trace *)

(** The arguments of the calls [fiducialMap.update(observations, stamp)]. *)
Definition update_calls (evs : list Event) : list (list Observation * Msg.Time) :=
  omap (λ e, match e with MapUpdate obs t => Some (obs, t) | _ => None end) evs.

Definition is_info (e : Event) : bool :=
  match e with RosInfo _ => true | _ => false end.
Definition is_tick (e : Event) : bool :=
  match e with MapTick => true | _ => false end.
Definition is_save (e : Event) : bool :=
  match e with MapSave => true | _ => false end.
Definition is_subscribe (e : Event) : bool :=
  match e with Subscribe _ _ => true | _ => false end.

Definition count (f : Event → bool) (evs : list Event) : nat :=
  length (List.filter f evs).

(** The loop finds [ros::ok()] false after the turn. *)
Definition stops (t : Turn) : bool := sigint t || halted t.

(** The turns of a schedule that run: the loop ends after the first turn
    that leaves [ros::ok()] false. *)
Fixpoint executed (sched : list Turn) : list Turn :=
  match sched with
  | [] => []
  | t :: sched' => if stops t then [t] else t :: executed sched'
  end.

(** The number of deliveries of SIGINT in the given turns. *)
Definition sigints (ts : list Turn) : nat :=
  sum_list ((λ t, sigint_early t + sigint_asleep t + sigint_late t)%nat <$> ts).

Definition with_verbose (b : bool) (n : FiducialSlam) : FiducialSlam :=
  mkFiducialSlam (ft_sub n) (ftPub n) (use_fiducial_area_as_weight n)
    (weighting_scale n) (use_read_only_map n) (fiducialsFlat n) b.

Definition with_flat (b : bool) (n : FiducialSlam) : FiducialSlam :=
  mkFiducialSlam (ft_sub n) (ftPub n) (use_fiducial_area_as_weight n)
    (weighting_scale n) (use_read_only_map n) b (verboseInfo n).

(** A variance that is a finite, strictly positive number. *)
Definition finite_positive (v : float) : bool :=
  is_finite v && (0 <? v)%float.

(** The lines logged on entry to each pass of the loop, the lines of the
    walk over the sorted vector, and the vector as the loop leaves it. *)
Definition entry_lines (node : FiducialSlam) (ts : list Msg.FiducialTransform) : list Event :=
  if verboseInfo node
  then (λ ft, RosInfo (InfoFidObjErr (Msg.fiducial_id ft) (Msg.object_error ft))) <$> ts
  else [].

Definition walk_lines (node : FiducialSlam) (obs : list Observation) : list Event :=
  if verboseInfo node
  then (λ o, RosInfo (InfoFidXYZ (fid o) (Msg.x (getOrigin o)) (Msg.y (getOrigin o))
                                 (Msg.z (getOrigin o)))) <$> obs
  else [].

Definition constructed (node : FiducialSlam) (hdr : Msg.Header)
    (ts : list Msg.FiducialTransform) : list Observation :=
  (λ ft, make_observation hdr ft (sighting_variance node ft)) <$> ts.

(** The calls of one turn of the loop, by the node the process holds:
    the callbacks [spinOnce] runs, the sleep, the tick, and the calls of
    the handler wherever SIGINT arrives. *)
Definition dispatch (n : option FiducialSlam) (ws : list Msg.FiducialTransformArray)
    : list Event :=
  match n with
  | Some n =>
      match ft_sub n with
      | Some _ => concat (transformCallback n <$> ws)
      | None => []
      end
  | None => []
  end.

Definition handler_events (n : option FiducialSlam) : list Event :=
  match n with
  | Some n =>
      if use_read_only_map n
      then [RosInfo (InfoText "Fiducial Slam not saving map per read_only_map option")]
      else [MapSave]
  | None => []
  end ++ [RosShutdown].

Definition signal_events (n : option FiducialSlam) (k : nat) : list Event :=
  concat (replicate k (handler_events n)).

Definition body_events (n : option FiducialSlam) (t : Turn) : list Event :=
  signal_events n (sigint_early t)
  ++ [SpinOnce] ++ dispatch n (waiting t) ++ [RateSleep rate_hz]
  ++ signal_events n (sigint_asleep t) ++ [MapTick].

Definition turn_events (n : option FiducialSlam) (t : Turn) : list Event :=
  body_events n t ++ signal_events n (sigint_late t).

(** ** Sample inputs *)

Module Sample.

Definition hdr : Msg.Header := Msg.mkHeader (Msg.mkTime 10 0) "camera".

(** A sighting at distance [d] along x, rolled and pitched. *)
Definition sighting (id : Z) (d area err : float) : Msg.FiducialTransform :=
  Msg.mkFiducialTransform id
    (Msg.mkTransform (Msg.mkVector3 d 0 0) (Msg.mkQuaternion 0.5 0.5 0.5 0.5))
    err area.

Definition batch (ts : list Msg.FiducialTransform) : Msg.FiducialTransformArray :=
  Msg.mkFiducialTransformArray hdr ts.

(** Area policy or error policy, default scale, flat or not. *)
Definition slam (area flat : bool) : FiducialSlam :=
  mkFiducialSlam (Some ("/fiducial_transforms", 1)) None area 1e9 false flat false.

(** A parameter server that holds the given boolean parameters only. *)
Definition handle (bools : list (string * bool)) : NodeHandle :=
  mkNodeHandle
    (λ name default,
       match List.find (λ kv, String.eqb kv.1 name) bools with
       | Some kv => kv.2
       | None => default
       end)
    (λ _ default, default).

(** A turn in which [ws] wait and no signal arrives, and a turn in which
    nothing waits and SIGINT arrives once while the loop sleeps. *)
Definition quiet (ws : list Msg.FiducialTransformArray) : Turn := mkTurn 0 ws 0 0 false.
Definition interrupted : Turn := mkTurn 0 [] 1 0 false.

(** Seventeen sightings, each with its identifier and its distance: the
    distance is the position in the order of emission.  Identifiers 16
    and 6 are reported twice. *)
Definition seen (id : Z) (d : float) : Msg.FiducialTransform := sighting id d 1024 0.5.

Definition crowd : list Msg.FiducialTransform :=
  [seen 4 0; seen 36 1; seen 16 2; seen 20 3; seen 17 4; seen 14 5;
   seen 37 6; seen 32 7; seen 10 8; seen 6 9; seen 6 10; seen 16 11;
   seen 22 12; seen 29 13; seen 38 14; seen 34 15; seen 3 16].

(** The same without the first sighting of 16. *)
Definition crowd_less : list Msg.FiducialTransform :=
  take 2 crowd ++ drop 3 crowd.

Definition first_pose (a b : TransformWithVariance) : TransformWithVariance := a.
Definition same_pose (a : TransformWithVariance) : TransformWithVariance := a.

Definition world (ro : bool) : MapModel.World :=
  MapModel.mkWorld (MapModel.empty_map ro) None None.

End Sample.
(** ** Further readings of a trace *)

Definition is_advertise (e : Event) : bool :=
  match e with Advertise _ _ => true | _ => false end.
Definition is_shutdown (e : Event) : bool :=
  match e with RosShutdown => true | _ => false end.

(** The identifiers of the lines logged on entry to the loop body, and of
    the lines of the walk over the sorted vector, in the order logged. *)
Definition objerr_ids (evs : list Event) : list Z :=
  omap (λ e, match e with RosInfo (InfoFidObjErr id _) => Some id | _ => None end) evs.
Definition xyz_ids (evs : list Event) : list Z :=
  omap (λ e, match e with RosInfo (InfoFidXYZ id _ _ _) => Some id | _ => None end) evs.

(** The reported transform an Observation carries. *)
Definition obs_transform (o : Observation) : Msg.Transform :=
  twv_transform (stamped_data (T_camFid o)).

(** * Properties *)

(** ** The sort *)

Section InsertionSortFacts.
Context {A : Type} (comp : A → A → bool).

Lemma sort_insert_split (v : A) (l : list A) :
  ∃ l1 l2, l = l1 ++ l2 ∧ sort_insert comp v l = l1 ++ v :: l2
           ∧ Forall (λ u, comp u v = true) l1.
Proof.
  induction l as [|u l IH]; simpl.
  - exists [], []. auto.
  - destruct (comp u v) eqn:Huv.
    + destruct IH as (l1 & l2 & -> & -> & Hall).
      exists (u :: l1), l2. repeat split; auto.
    + exists [], (u :: l). auto.
Qed.

Lemma sort_insert_perm (v : A) (l : list A) : sort_insert comp v l ≡ₚ v :: l.
Proof.
  destruct (sort_insert_split v l) as (l1 & l2 & -> & -> & _).
  symmetry. apply Permutation_middle.
Qed.

Lemma insertion_sort_perm (l : list A) : insertion_sort comp l ≡ₚ l.
Proof.
  induction l as [|v l IH]; simpl; [done|].
  rewrite sort_insert_perm. by f_equiv.
Qed.

End InsertionSortFacts.

(** Reading a list at all its positions gives the list back. *)
Lemma omap_lookup_seq {A} (pre l : list A) :
  omap ((pre ++ l) !!.) (seq (length pre) (length l)) = l.
Proof.
  revert pre. induction l as [|x l IH]; intros pre; [done|].
  cbn [length seq omap list_omap].
  rewrite (lookup_app_r pre) by done. rewrite Nat.sub_diag. cbn.
  f_equal. specialize (IH (pre ++ [x])).
  rewrite length_app, <- app_assoc in IH. cbn in IH.
  by rewrite Nat.add_1_r in IH.
Qed.

Section StdSortFacts.
Context {A : Type} (comp : A → A → bool).


(** The sort returns either the insertion sorted range or a range it has
    checked. *)
Lemma std_sort_cases (l : list A) :
  std_sort comp l = insertion_sort comp l
  ∨ ∃ positions, std_sort comp l = omap (l !!.) positions
                 ∧ positions ≡ₚ seq 0 (length l)
                 ∧ is_sorted comp (std_sort comp l) = true.
Proof.
  unfold std_sort. destruct (length l <=? 16)%nat; [by left|].
  destruct (introsort _ _) as [positions|]; [|by left].
  destruct (bool_decide _ && _) eqn:Hcheck; [|by left].
  apply andb_true_iff in Hcheck as [Hperm%bool_decide_eq_true Hsorted].
  right. exists positions. repeat split; [|done].
  rewrite <- Hperm. symmetry. apply insertion_sort_perm.
Qed.

Lemma std_sort_perm (l : list A) : std_sort comp l ≡ₚ l.
Proof.
  destruct (std_sort_cases l) as [->|(positions & -> & Hperm & _)].
  - apply insertion_sort_perm.
  - rewrite Hperm. pose proof (omap_lookup_seq [] l) as Hall.
    cbn [app length] in Hall. by rewrite Hall.
Qed.

Lemma std_sort_length (l : list A) : length (std_sort comp l) = length l.
Proof. by rewrite std_sort_perm. Qed.

End StdSortFacts.

(** Sorting by an integer key. *)
Section SortByKey.
Context {A : Type} (key : A → Z).

Local Abbreviation by_key := (λ a b : A, key a <? key b).
Local Abbreviation key_le := (λ a b : A, key a ≤ key b).

Lemma sort_insert_sorted_by_key (v : A) (l : list A) :
  StronglySorted key_le l → StronglySorted key_le (sort_insert by_key v l).
Proof.
  induction 1 as [|u l Hl IH Hu]; simpl.
  - repeat constructor.
  - destruct (Z.ltb_spec (key u) (key v)) as [Hlt|Hge].
    + constructor; [done|].
      rewrite sort_insert_perm. constructor; [lia|done].
    + constructor; [by constructor|].
      constructor; [done|].
      eapply Forall_impl; [exact Hu|]. simpl. intros; lia.
Qed.

Lemma insertion_sort_sorted_by_key (l : list A) :
  StronglySorted key_le (insertion_sort by_key l).
Proof.
  induction l; simpl; [constructor|by apply sort_insert_sorted_by_key].
Qed.

Lemma is_sorted_by_key (l : list A) :
  is_sorted by_key l = true → StronglySorted key_le l.
Proof.
  intros Hsorted. apply Sorted_StronglySorted.
  { intros a b c. lia. }
  induction l as [|u l IH]; [constructor|].
  destruct l as [|v l]; [by repeat constructor|].
  cbn [is_sorted] in Hsorted. apply andb_true_iff in Hsorted as [Huv Hl].
  constructor; [by apply IH|]. constructor.
  apply negb_true_iff, Z.ltb_ge in Huv. exact Huv.
Qed.

Lemma std_sort_sorted_by_key (l : list A) :
  StronglySorted key_le (std_sort by_key l).
Proof.
  destruct (std_sort_cases by_key l) as [->|(positions & _ & _ & Hsorted)].
  - apply insertion_sort_sorted_by_key.
  - by apply is_sorted_by_key.
Qed.

End SortByKey.

Lemma std_sort_sorted (l : list Observation) :
  StronglySorted fid_le (std_sort compareObservation l).
Proof. exact (std_sort_sorted_by_key fid l). Qed.


(** The sorted identifiers of a list of integers: there is one ascending
    arrangement of them, whatever the sort does with equal elements. *)
Lemma std_sort_keys {A} (key : A → Z) (l : list A) :
  key <$> std_sort (λ a b, key a <? key b) l = std_sort Z.ltb (key <$> l).
Proof.
  apply (StronglySorted_unique Z.le).
  - pose proof (std_sort_sorted_by_key key l) as Hs.
    induction Hs as [|a s _ IH Ha]; [constructor|].
    rewrite fmap_cons. constructor; [done|]. by apply Forall_fmap.
  - pose proof (std_sort_sorted_by_key id (key <$> l)) as Hs.
    exact Hs.
  - by rewrite !std_sort_perm.
Qed.



(** ** The tie-break and the sort *)




(** ** The loop of transformCallback *)

Lemma loop_fold node hdr ts acc :
  fold_left (loop_body node hdr) ts acc =
  (acc.1 ++ entry_lines node ts, acc.2 ++ constructed node hdr ts).
Proof.
  revert acc. induction ts as [|ft ts IH]; intros [lg os].
  - unfold entry_lines, constructed. simpl. destruct (verboseInfo node); by rewrite !app_nil_r.
  - cbn [fold_left]. rewrite IH. unfold loop_body, entry_lines, constructed. simpl.
    destruct (verboseInfo node); simpl; by rewrite <- !app_assoc.
Qed.

Lemma sorted_observations_eq node msg :
  sorted_observations node msg =
  std_sort compareObservation (constructed node (Msg.header msg) (Msg.transforms msg)).
Proof. unfold sorted_observations. by rewrite loop_fold. Qed.

Lemma transformCallback_eq node msg :
  transformCallback node msg =
  entry_lines node (Msg.transforms msg)
  ++ walk_lines node (sorted_observations node msg)
  ++ [MapUpdate (sorted_observations node msg) (Msg.stamp (Msg.header msg))].
Proof.
  unfold transformCallback. rewrite sorted_observations_eq, loop_fold. simpl.
  unfold walk_lines. by destruct (verboseInfo node).
Qed.

Lemma update_calls_app evs1 evs2 :
  update_calls (evs1 ++ evs2) = update_calls evs1 ++ update_calls evs2.
Proof. apply omap_app. Qed.

Lemma update_calls_info evs :
  Forall (λ e, is_info e = true) evs → update_calls evs = [].
Proof.
  induction 1 as [|e evs He _ IH]; [done|].
  destruct e; try discriminate. exact IH.
Qed.

Lemma entry_lines_info node ts : Forall (λ e, is_info e = true) (entry_lines node ts).
Proof.
  unfold entry_lines. destruct (verboseInfo node); [|constructor].
  apply Forall_forall. intros e (ft & -> & _)%list_elem_of_fmap. done.
Qed.

Lemma walk_lines_info node obs : Forall (λ e, is_info e = true) (walk_lines node obs).
Proof.
  unfold walk_lines. destruct (verboseInfo node); [|constructor].
  apply Forall_forall. intros e (o & -> & _)%list_elem_of_fmap. done.
Qed.

Lemma update_calls_transformCallback node msg :
  update_calls (transformCallback node msg) =
  [(sorted_observations node msg, Msg.stamp (Msg.header msg))].
Proof.
  rewrite transformCallback_eq, !update_calls_app.
  rewrite (update_calls_info _ (entry_lines_info _ _)).
  by rewrite (update_calls_info _ (walk_lines_info _ _)).
Qed.

Lemma constructed_verbose b node hdr ts :
  constructed (with_verbose b node) hdr ts = constructed node hdr ts.
Proof. done. Qed.

Lemma constructed_flat b node hdr ts :
  constructed (with_flat b node) hdr ts = constructed node hdr ts.
Proof. done. Qed.

(** The flag [fiducialsFlat] does not reach the observations. *)
Lemma sorted_observations_flat b node msg :
  sorted_observations (with_flat b node) msg = sorted_observations node msg.
Proof. by rewrite !sorted_observations_eq, constructed_flat. Qed.

Lemma sorted_observations_perm node msg :
  sorted_observations node msg ≡ₚ constructed node (Msg.header msg) (Msg.transforms msg).
Proof. rewrite sorted_observations_eq. apply std_sort_perm. Qed.

Lemma filter_info_lines (evs : list Event) :
  Forall (λ e, is_info e = true) evs → List.filter (λ e, negb (is_info e)) evs = [].
Proof.
  induction 1 as [|e evs He _ IH]; simpl; [done|]. by rewrite He.
Qed.

(** ** Claims on the observation vector *)

(** C9: for every message, [transformCallback] makes one call of
    [fiducialMap.update], and the vector it passes holds exactly one
    Observation per entry of [msg->transforms], repeated identifiers
    included: it is a rearrangement of the observations the loop
    constructed, of the same length as the transform array. *)
Theorem transformCallback_one_observation_per_entry node msg :
  ∃ obs,
    update_calls (transformCallback node msg) = [(obs, Msg.stamp (Msg.header msg))]
    ∧ length obs = length (Msg.transforms msg)
    ∧ obs ≡ₚ constructed node (Msg.header msg) (Msg.transforms msg)
    ∧ fid <$> obs ≡ₚ Msg.fiducial_id <$> Msg.transforms msg.
Proof.
  exists (sorted_observations node msg).
  pose proof (sorted_observations_perm node msg) as Hperm.
  split; [apply update_calls_transformCallback|].
  split; [by rewrite Hperm; unfold constructed; rewrite length_fmap|].
  split; [done|].
  rewrite Hperm. unfold constructed. by rewrite <- list_fmap_compose.
Qed.

(** C10: the vector and the stamp passed to [fiducialMap.update] are the
    same with [verboseInfo] set and cleared; apart from [ROS_INFO] lines
    the callback makes the same calls, and with the flag cleared it logs
    nothing. *)
Theorem verbose_changes_logging_only node msg :
  update_calls (transformCallback (with_verbose true node) msg)
    = update_calls (transformCallback (with_verbose false node) msg)
  ∧ List.filter (λ e, negb (is_info e)) (transformCallback (with_verbose true node) msg)
    = List.filter (λ e, negb (is_info e)) (transformCallback (with_verbose false node) msg)
  ∧ count is_info (transformCallback (with_verbose false node) msg) = 0%nat.
Proof.
  assert (Hobs : ∀ b, sorted_observations (with_verbose b node) msg
                      = sorted_observations node msg).
  { intros b. by rewrite !sorted_observations_eq, constructed_verbose. }
  split; [by rewrite !update_calls_transformCallback, !Hobs|].
  split.
  - rewrite !transformCallback_eq, !List.filter_app, !Hobs.
    by rewrite !(filter_info_lines _ (entry_lines_info _ _)),
               !(filter_info_lines _ (walk_lines_info _ _)).
  - by rewrite transformCallback_eq.
Qed.

(** ** The process *)

Lemma mySigintHandler_eq p :
  mySigintHandler p = mkProcess (node p) false (trace p ++ handler_events (node p)).
Proof.
  unfold mySigintHandler, handler_events, ros_shutdown, emit.
  destruct p as [[n|] o tr]; simpl; [|done].
  destruct (use_read_only_map n); simpl; by rewrite <- app_assoc.
Qed.

Lemma signal_events_succ n k :
  signal_events n (S k) = signal_events n k ++ handler_events n.
Proof.
  unfold signal_events. induction k as [|k IH]; simpl in *.
  - by rewrite app_nil_r.
  - rewrite <- app_assoc. f_equal. exact IH.
Qed.

Lemma deliver_eq k p :
  deliver k p =
  mkProcess (node p) (ok p && (k =? 0)%nat) (trace p ++ signal_events (node p) k).
Proof.
  induction k as [|k IH].
  - unfold deliver, signal_events. simpl. rewrite app_nil_r, andb_true_r. by destruct p.
  - change (deliver (S k) p) with (mySigintHandler (deliver k p)).
    rewrite IH, mySigintHandler_eq. cbn [node ok trace].
    rewrite andb_false_r, signal_events_succ. by rewrite app_assoc.
Qed.

Lemma spinOnce_eq ws p :
  spinOnce ws p = mkProcess (node p) (ok p) (trace p ++ [SpinOnce] ++ dispatch (node p) ws).
Proof.
  unfold spinOnce, dispatch, emit. destruct p as [[n|] o tr]; simpl; [|done].
  destruct (ft_sub n); simpl; [by rewrite <- app_assoc|done].
Qed.

Lemma loop_turn_eq t p :
  loop_turn t p =
  mkProcess (node p)
    (ok p && (sigint_early t =? 0)%nat && (sigint_asleep t =? 0)%nat)
    (trace p ++ body_events (node p) t).
Proof.
  unfold loop_turn, body_events, emit.
  rewrite !deliver_eq, spinOnce_eq. cbn [node ok trace].
  f_equal. by rewrite <- !app_assoc.
Qed.

Lemma turn_eq t p :
  turn_end t (loop_turn t p) =
  mkProcess (node p) (ok p && negb (stops t)) (trace p ++ turn_events (node p) t).
Proof.
  unfold turn_end, turn_events. rewrite deliver_eq, loop_turn_eq. cbn [node ok trace].
  unfold stops, sigint.
  destruct (halted t), (ok p), (sigint_early t), (sigint_asleep t), (sigint_late t);
    cbn; by rewrite <- ?app_assoc.
Qed.

Lemma main_loop_eq sched p :
  ok p = true →
  main_loop sched p =
  mkProcess (node p) (negb (existsb stops sched))
            (trace p ++ concat (turn_events (node p) <$> executed sched)).
Proof.
  revert p. induction sched as [|t sched IH]; intros p Hok.
  - simpl. rewrite app_nil_r. destruct p; simpl in *; by subst.
  - cbn [main_loop executed existsb]. rewrite Hok, turn_eq, Hok. simpl.
    destruct (stops t); simpl.
    + destruct sched; simpl; by rewrite app_nil_r.
    + rewrite IH by done. simpl. by rewrite <- app_assoc.
Qed.

Lemma main_eq nh sched :
  main nh sched =
  mkProcess (Some (FiducialSlam_new nh).1) (negb (existsb stops sched))
    (([RosInit "fiducial_slam"] ++ (FiducialSlam_new nh).2 ++ [SignalInstall])
     ++ concat (turn_events (Some (FiducialSlam_new nh).1) <$> executed sched)).
Proof.
  unfold main. destruct (FiducialSlam_new nh) as [n built]. by rewrite main_loop_eq.
Qed.

(** ** Counting calls *)

Lemma count_app f evs1 evs2 : count f (evs1 ++ evs2) = (count f evs1 + count f evs2)%nat.
Proof. unfold count. by rewrite List.filter_app, length_app. Qed.

Lemma count_cons f e evs :
  count f (e :: evs) = ((if f e then 1 else 0) + count f evs)%nat.
Proof. unfold count. simpl. by destruct (f e). Qed.

Lemma count_info_lines f evs :
  (∀ l, f (RosInfo l) = false) → Forall (λ e, is_info e = true) evs → count f evs = 0%nat.
Proof.
  intros Hf. induction 1 as [|e evs He _ IH]; [done|].
  destruct e; try discriminate. by rewrite count_cons, Hf, IH.
Qed.

Lemma count_transformCallback f n msg :
  (∀ l, f (RosInfo l) = false) →
  count f (transformCallback n msg) =
  count f [MapUpdate (sorted_observations n msg) (Msg.stamp (Msg.header msg))].
Proof.
  intros Hf. rewrite transformCallback_eq, !count_app.
  by rewrite (count_info_lines f _ Hf (entry_lines_info _ _)),
             (count_info_lines f _ Hf (walk_lines_info _ _)).
Qed.

Lemma count_concat f (g : Msg.FiducialTransformArray → list Event) ws k :
  (∀ w, count f (g w) = k) → count f (concat (g <$> ws)) = (length ws * k)%nat.
Proof.
  intros Hg. induction ws as [|w ws IH]; [done|].
  by rewrite fmap_cons, concat_cons, count_app, Hg, IH.
Qed.

Lemma count_dispatch f n ws :
  (∀ l, f (RosInfo l) = false) → (∀ obs t, f (MapUpdate obs t) = false) →
  count f (dispatch n ws) = 0%nat.
Proof.
  intros Hinfo Hupd. unfold dispatch. destruct n as [n|]; [|done].
  destruct (ft_sub n); [|done].
  rewrite (count_concat f (transformCallback n) ws 0); [lia|].
  intros w. rewrite count_transformCallback by done. by rewrite count_cons, Hupd.
Qed.

Lemma count_signal_events f n k :
  count f (signal_events n k) = (k * count f (handler_events n))%nat.
Proof.
  induction k as [|k IH]; [done|].
  rewrite signal_events_succ, count_app, IH. nia.
Qed.

(** The calls of a turn: the three calls of the loop body, the calls of
    the callbacks and those of the handler. *)
Lemma count_turn_events f n t :
  (∀ l, f (RosInfo l) = false) → (∀ obs s, f (MapUpdate obs s) = false) →
  count f (turn_events n t) =
  (count f [SpinOnce; RateSleep rate_hz; MapTick]
   + sigints [t] * count f (handler_events n))%nat.
Proof.
  intros Hinfo Hupd. unfold turn_events, body_events, sigints.
  rewrite !count_app, !count_signal_events, count_dispatch by done.
  rewrite !count_cons. cbn [fmap list_fmap sum_list sum_list_with].
  change (count f []) with 0%nat. unfold id.
  destruct (f SpinOnce), (f (RateSleep rate_hz)), (f MapTick); nia.
Qed.

Lemma sigints_cons t ts :
  sigints (t :: ts) = (sigints [t] + sigints ts)%nat.
Proof. unfold sigints. cbn. lia. Qed.

Lemma count_turns f n ts :
  (∀ l, f (RosInfo l) = false) → (∀ obs s, f (MapUpdate obs s) = false) →
  count f (concat (turn_events n <$> ts)) =
  (length ts * count f [SpinOnce; RateSleep rate_hz; MapTick]
   + sigints ts * count f (handler_events n))%nat.
Proof.
  intros Hinfo Hupd. induction ts as [|t ts IH]; [done|].
  rewrite fmap_cons, concat_cons, count_app, IH, count_turn_events by done.
  rewrite (sigints_cons t ts). cbn [length]. nia.
Qed.

Lemma count_handler_no_tick n : count is_tick (handler_events n) = 0%nat.
Proof. unfold handler_events. destruct n as [n|]; [|done]. by destruct (use_read_only_map n). Qed.

Lemma count_handler_no_subscribe n : count is_subscribe (handler_events n) = 0%nat.
Proof. unfold handler_events. destruct n as [n|]; [|done]. by destruct (use_read_only_map n). Qed.

Lemma count_handler_shutdown n : count is_shutdown (handler_events n) = 1%nat.
Proof. unfold handler_events. destruct n as [n|]; [|done]. by destruct (use_read_only_map n). Qed.

Lemma count_handler_save n :
  count is_save (handler_events (Some n)) = (if use_read_only_map n then 0 else 1)%nat.
Proof. unfold handler_events. by destruct (use_read_only_map n). Qed.

Lemma FiducialSlam_new_eq nh :
  FiducialSlam_new nh =
  let dpe := param_bool nh "do_pose_estimation" false in
  let ro := param_bool nh "read_only_map" false in
  (mkFiducialSlam
     (if dpe then None else Some ("/fiducial_transforms", 1))
     (if dpe then Some ("/fiducial_transforms", 1) else None)
     (param_bool nh "use_fiducial_area_as_weight" false)
     (param_double nh "weighting_scale" 1e9%float)
     ro
     (param_bool nh "fiducials_flat" false)
     (param_bool nh "verbose_info" false),
   [MapConstruct;
    RosInfo (InfoText (if ro then "Fiducial Slam in READ ONLY MAP MODE!"
                       else "Fiducial Slam will save the generated map"))]
   ++ [if dpe then Advertise "/fiducial_transforms" 1
       else Subscribe "/fiducial_transforms" 1]
   ++ [RosInfo (InfoText "Fiducial Slam ready")]).
Proof.
  unfold FiducialSlam_new. simpl.
  destruct (param_bool nh "do_pose_estimation" false),
           (param_bool nh "read_only_map" false); done.
Qed.

Lemma update_calls_dispatch n ws :
  update_calls (dispatch (Some n) ws) =
  match ft_sub n with
  | Some _ => (λ msg, (sorted_observations n msg, Msg.stamp (Msg.header msg))) <$> ws
  | None => []
  end.
Proof.
  unfold dispatch. destruct (ft_sub n); [|done].
  induction ws as [|w ws IH]; [done|].
  by rewrite !fmap_cons, concat_cons, update_calls_app, IH, update_calls_transformCallback.
Qed.

Lemma update_calls_signal_events n k : update_calls (signal_events n k) = [].
Proof.
  induction k as [|k IH]; [done|].
  rewrite signal_events_succ, update_calls_app, IH.
  unfold handler_events. destruct n as [n|]; [|done]. by destruct (use_read_only_map n).
Qed.

Lemma update_calls_turn n t :
  update_calls (turn_events n t) = update_calls (dispatch n (waiting t)).
Proof.
  unfold turn_events, body_events.
  rewrite !update_calls_app, !update_calls_signal_events.
  change (update_calls [SpinOnce]) with (@nil (list Observation * Msg.Time)).
  change (update_calls [RateSleep rate_hz]) with (@nil (list Observation * Msg.Time)).
  change (update_calls [MapTick]) with (@nil (list Observation * Msg.Time)).
  by rewrite !app_nil_r.
Qed.

Lemma update_calls_turns n ts :
  update_calls (concat (turn_events (Some n) <$> ts)) =
  match ft_sub n with
  | Some _ => (λ msg, (sorted_observations n msg, Msg.stamp (Msg.header msg)))
                <$> concat (waiting <$> ts)
  | None => []
  end.
Proof.
  induction ts as [|t ts IH]; [by destruct (ft_sub n)|].
  rewrite !fmap_cons, !concat_cons, update_calls_app, IH, update_calls_turn,
    update_calls_dispatch.
  destruct (ft_sub n); [by rewrite fmap_app|done].
Qed.

Lemma construction_calls f nh :
  (∀ l, f (RosInfo l) = false) → f MapConstruct = false → f SignalInstall = false →
  (∀ s, f (RosInit s) = false) →
  count f ([RosInit "fiducial_slam"] ++ (FiducialSlam_new nh).2 ++ [SignalInstall]) =
  count f [if param_bool nh "do_pose_estimation" false
           then Advertise "/fiducial_transforms" 1
           else Subscribe "/fiducial_transforms" 1].
Proof.
  intros Hinfo Hmap Hsig Hinit. rewrite FiducialSlam_new_eq. cbn [snd].
  rewrite !count_app, !count_cons, Hinit, Hmap, !Hinfo, Hsig. cbn. lia.
Qed.

Section Collaborators.
Context (compose : TransformWithVariance → TransformWithVariance → TransformWithVariance).
Context (inverse : TransformWithVariance → TransformWithVariance).
Context (weighted_average :
  TransformWithVariance → TransformWithVariance → TransformWithVariance).
Context (anchor : TransformWithVariance → TransformWithVariance).

Local Abbreviation exec_event := (MapModel.exec_event compose inverse weighted_average anchor).
Local Abbreviation exec_trace := (MapModel.exec_trace compose inverse weighted_average anchor).


(** Only [saveMap] writes the durable map. *)
Lemma durable_without_save evs w :
  count is_save evs = 0%nat →
  MapModel.durable (exec_trace evs w) = MapModel.durable w.
Proof.
  revert w. induction evs as [|e evs IH]; intros w; [done|].
  rewrite count_cons. intros Hcount.
  change (exec_trace (e :: evs) w) with (exec_trace evs (exec_event w e)).
  rewrite IH by (destruct (is_save e); lia).
  by destruct e.
Qed.



End Collaborators.
(** ** Claims on configuration and lifecycle *)

(** C5: the variance of the Observation built for a sighting is
    [weighting_scale / fiducial_area] under the area policy and
    [weighting_scale * object_error] under the error policy; the policy
    flag and the scale are the values the constructor read from the
    parameters, and the node the process holds is that same node after
    any number of turns of the loop. *)
Theorem variance_follows_fixed_policy slam msg nh sched :
  (∃ obs,
     update_calls (transformCallback slam msg) = [(obs, Msg.stamp (Msg.header msg))]
     ∧ (λ o, (fid o, obs_variance o)) <$> obs ≡ₚ
       (λ ft, (Msg.fiducial_id ft,
               if use_fiducial_area_as_weight slam
               then (weighting_scale slam / Msg.fiducial_area ft)%float
               else (weighting_scale slam * Msg.object_error ft)%float))
         <$> Msg.transforms msg)
  ∧ use_fiducial_area_as_weight (FiducialSlam_new nh).1
      = param_bool nh "use_fiducial_area_as_weight" false
  ∧ weighting_scale (FiducialSlam_new nh).1
      = param_double nh "weighting_scale" 1e9%float
  ∧ node (main nh sched) = Some (FiducialSlam_new nh).1.
Proof.
  split.
  - exists (sorted_observations slam msg).
    split; [apply update_calls_transformCallback|].
    rewrite sorted_observations_perm. unfold constructed.
    by rewrite <- list_fmap_compose.
  - rewrite main_eq, FiducialSlam_new_eq. done.
Qed.

(** C6: with a node in place, the SIGINT handler calls [saveMap] exactly
    when [use_read_only_map] is false, and shuts down either way.  In a
    run of [main] the handler only runs once the node exists, so the
    number of saves is 0 in a read-only session and otherwise the number
    of times SIGINT was delivered; a read-only session leaves the durable
    map as it found it. *)
Theorem shutdown_saves_unless_read_only :
  (∀ n o tr,
     mySigintHandler (mkProcess (Some n) o tr) =
     mkProcess (Some n) false
       (tr ++ (if use_read_only_map n
               then [RosInfo (InfoText "Fiducial Slam not saving map per read_only_map option")]
               else [MapSave]) ++ [RosShutdown]))
  ∧ (∀ nh sched,
       ∃ n, node (main nh sched) = Some n
            ∧ use_read_only_map n = param_bool nh "read_only_map" false
            ∧ count is_save (trace (main nh sched)) =
                if use_read_only_map n then 0%nat else sigints (executed sched))
  ∧ (∀ compose inverse weighted_average anchor nh sched w,
       param_bool nh "read_only_map" false = true →
       MapModel.durable
         (MapModel.exec_trace compose inverse weighted_average anchor
            (trace (main nh sched)) w)
       = MapModel.durable w).
Proof.
  assert (Hsaves : ∀ nh sched,
    count is_save (trace (main nh sched)) =
      if param_bool nh "read_only_map" false then 0%nat else sigints (executed sched)).
  { intros nh sched. rewrite main_eq. cbn [trace].
    rewrite count_app, count_turns, count_handler_save, construction_calls by done.
    rewrite FiducialSlam_new_eq. cbn [fst use_read_only_map].
    destruct (param_bool nh "do_pose_estimation" false),
             (param_bool nh "read_only_map" false); cbn; lia. }
  split; [|split].
  - intros n o tr. rewrite mySigintHandler_eq. done.
  - intros nh sched. exists (FiducialSlam_new nh).1.
    split; [by rewrite main_eq|].
    split; [by rewrite FiducialSlam_new_eq|].
    rewrite Hsaves. by rewrite FiducialSlam_new_eq.
  - intros compose inverse weighted_average anchor nh sched w Hro.
    apply durable_without_save. by rewrite Hsaves, Hro.
Qed.

(** C7: every turn of the main loop ends with one call of the no-argument
    [fiducialMap.update()], after the sleep of the 20 Hz rate, whatever
    messages waited; a run makes as many ticks as turns.  The tick
    returns on the empty map and leaves every landmark as it was. *)
Theorem maintenance_tick_every_turn :
  rate_hz = 20
  ∧ (∀ t p, ∃ before,
       trace (loop_turn t p) = trace p ++ before ++ [MapTick]
       ∧ count is_tick before = 0%nat
       ∧ RateSleep 20 ∈ before)
  ∧ (∀ nh sched, count is_tick (trace (main nh sched)) = length (executed sched))
  ∧ (∀ ro, MapModel.tick (MapModel.empty_map ro) = Some (MapModel.empty_map ro))
  ∧ (∀ m, ∃ m', MapModel.tick m = Some m'
                ∧ MapModel.landmarks m' = MapModel.landmarks m)
  ∧ (∀ compose inverse weighted_average anchor w,
       MapModel.map_state
         (MapModel.exec_event compose inverse weighted_average anchor w MapTick)
       = MapModel.map_state w).
Proof.
  split; [done|]. split; [|split; [|split; [|split]]].
  - intros t p. rewrite loop_turn_eq. cbn [trace]. unfold body_events.
    exists (signal_events (node p) (sigint_early t)
            ++ [SpinOnce] ++ dispatch (node p) (waiting t) ++ [RateSleep rate_hz]
            ++ signal_events (node p) (sigint_asleep t)).
    split; [by rewrite <- !app_assoc|]. split.
    + rewrite !count_app, !count_signal_events, count_handler_no_tick,
        count_dispatch by done.
      cbn. lia.
    + rewrite !elem_of_app. right. right. right. left. by apply list_elem_of_singleton.
  - intros nh sched. rewrite main_eq. cbn [trace].
    rewrite count_app, count_turns, count_handler_no_tick, construction_calls by done.
    destruct (param_bool nh "do_pose_estimation" false); cbn; lia.
  - done.
  - intros m. by exists m.
  - done.
Qed.

(** C8: when [do_pose_estimation] is set the constructor advertises
    instead of subscribing, the node holds no subscription, and no turn
    of the loop calls [fiducialMap.update(observations, stamp)]; when it
    is clear the node subscribes once and every waiting message of every
    turn that runs leads to exactly one such call. *)
Theorem pose_estimation_disables_fusion nh sched :
  let dpe := param_bool nh "do_pose_estimation" false in
  let n := (FiducialSlam_new nh).1 in
  node (main nh sched) = Some n
  ∧ ft_sub n = (if dpe then None else Some ("/fiducial_transforms", 1))
  ∧ count is_subscribe (trace (main nh sched)) = (if dpe then 0%nat else 1%nat)
  ∧ update_calls (trace (main nh sched)) =
      (if dpe then []
       else (λ msg, (sorted_observations n msg, Msg.stamp (Msg.header msg)))
              <$> concat (waiting <$> executed sched)).
Proof.
  intros dpe n. rewrite main_eq. cbn [node trace]. fold n.
  split; [done|].
  assert (Hsub : ft_sub n = (if dpe then None else Some ("/fiducial_transforms", 1))).
  { unfold n, dpe. by rewrite FiducialSlam_new_eq. }
  split; [done|]. split.
  - rewrite count_app, count_turns, count_handler_no_subscribe, construction_calls by done.
    fold dpe. destruct dpe; cbn; lia.
  - rewrite update_calls_app, update_calls_turns, Hsub.
    replace (update_calls ([RosInit "fiducial_slam"] ++ (FiducialSlam_new nh).2
                           ++ [SignalInstall]))
      with (@nil (list Observation * Msg.Time)).
    + by destruct dpe.
    + rewrite FiducialSlam_new_eq. cbn [snd].
      by destruct (param_bool nh "do_pose_estimation" false).
Qed.
(** ** Claims on flattening, variance and order *)

(** C1 (the code at a rolled and pitched sighting, flattening on): the
    Observation passed to [fiducialMap.update] still carries the x and y
    components 0.5 of the reported rotation; the flattened quaternion
    [q] is (0, 0, 0.5, 0.5) but is not what the Observation is built from. *)
Theorem flat_mode_keeps_roll_and_pitch :
  let slam := Sample.slam false true in
  let ft := Sample.sighting 7 2 1024 0.5 in
  fiducialsFlat slam = true
  ∧ local_q slam ft = Msg.mkQuaternion 0 0 0.5 0.5
  ∧ ∃ obs t,
      update_calls (transformCallback slam (Sample.batch [ft])) = [(obs, t)]
      ∧ obs_rotation <$> obs = [Msg.mkQuaternion 0.5 0.5 0.5 0.5].
Proof.
  intros slam ft. split; [done|]. split; [done|].
  eexists _, _. rewrite update_calls_transformCallback. split; reflexivity.
Qed.

(** C2, refuted at a sighting of area zero under the area policy and at a
    sighting of error zero under the error policy: the variances passed
    to [fiducialMap.update] are infinity and zero. *)
Lemma zero_area_gives_infinite_variance :
  (∃ obs t,
     update_calls (transformCallback (Sample.slam true false)
                     (Sample.batch [Sample.sighting 7 2 0 0.5])) = [(obs, t)]
     ∧ obs_variance <$> obs = [infinity]
     ∧ finite_positive infinity = false)
  ∧ (∃ obs t,
     update_calls (transformCallback (Sample.slam false false)
                     (Sample.batch [Sample.sighting 7 2 1024 0])) = [(obs, t)]
     ∧ obs_variance <$> obs = [0%float]
     ∧ finite_positive 0 = false).
Proof.
  split; eexists _, _; rewrite update_calls_transformCallback;
    (split; [reflexivity|split; reflexivity]).
Qed.

(** C2 as amended: every Observation passed to [fiducialMap.update] is
    the one built from its sighting with the quotient
    [weighting_scale / fiducial_area] (area policy) or the product
    [weighting_scale * object_error] (error policy) as its variance,
    unclamped; its variance is finite and strictly positive exactly when
    that quotient or product is.  With the scale at its default 1e9, a
    reported area of positive zero gives the variance infinity and a
    reported error of positive zero gives the variance zero. *)
Theorem variance_passed_unclamped slam msg :
  let formula ft :=
    if use_fiducial_area_as_weight slam
    then (weighting_scale slam / Msg.fiducial_area ft)%float
    else (weighting_scale slam * Msg.object_error ft)%float in
  ∃ obs,
    update_calls (transformCallback slam msg) = [(obs, Msg.stamp (Msg.header msg))]
    ∧ obs ≡ₚ (λ ft, make_observation (Msg.header msg) ft (formula ft))
               <$> Msg.transforms msg
    ∧ (∀ o, o ∈ obs →
         ∃ ft, ft ∈ Msg.transforms msg
               ∧ o = make_observation (Msg.header msg) ft (formula ft)
               ∧ obs_variance o = formula ft
               ∧ finite_positive (obs_variance o) = finite_positive (formula ft))
    ∧ (∀ ft, ft ∈ Msg.transforms msg →
         make_observation (Msg.header msg) ft (formula ft) ∈ obs)
    ∧ (Forall (λ o, finite_positive (obs_variance o) = true) obs
       ↔ Forall (λ ft, finite_positive (formula ft) = true) (Msg.transforms msg))
    ∧ (∀ ft, weighting_scale slam = 1e9%float →
         (use_fiducial_area_as_weight slam = true → Msg.fiducial_area ft = 0%float →
          formula ft = infinity)
         ∧ (use_fiducial_area_as_weight slam = false → Msg.object_error ft = 0%float →
            formula ft = 0%float)).
Proof.
  intros formula. exists (sorted_observations slam msg).
  pose proof (sorted_observations_perm slam msg) as Hperm.
  change (constructed slam (Msg.header msg) (Msg.transforms msg))
    with ((λ ft, make_observation (Msg.header msg) ft (formula ft)) <$> Msg.transforms msg)
    in Hperm.
  split; [apply update_calls_transformCallback|].
  split; [done|]. split; [|split; [|split]].
  - intros o Ho. rewrite Hperm in Ho.
    apply list_elem_of_fmap in Ho as (ft & -> & Hft). by exists ft.
  - intros ft Hft. rewrite Hperm.
    by apply (list_elem_of_fmap_2
                (λ ft, make_observation (Msg.header msg) ft (formula ft))).
  - rewrite Hperm, Forall_fmap. done.
  - intros ft Hscale. unfold formula. rewrite Hscale.
    split; intros -> ->; reflexivity.
Qed.

(** C4, refuted at a batch that reports identifier 7 twice, at distances
    2 and 4: the vector passed to [fiducialMap.update] lists them in the
    order the detector emitted them, so the two emission orders give two
    different vectors. *)
Lemma duplicate_identifiers_keep_emission_order :
  let a := Sample.sighting 7 2 1024 0.5 in
  let b := Sample.sighting 7 4 2048 0.5 in
  [a; b] ≡ₚ [b; a]
  ∧ (∃ obs t,
       update_calls (transformCallback (Sample.slam true false) (Sample.batch [a; b]))
         = [(obs, t)]
       ∧ (λ o, Msg.x (getOrigin o)) <$> obs = [2%float; 4%float])
  ∧ (∃ obs t,
       update_calls (transformCallback (Sample.slam true false) (Sample.batch [b; a]))
         = [(obs, t)]
       ∧ (λ o, Msg.x (getOrigin o)) <$> obs = [4%float; 2%float])
  ∧ (2 =? 4)%float = false.
Proof.
  intros a b. split; [apply perm_swap|].
  split; [|split; [|reflexivity]];
    eexists _, _; rewrite update_calls_transformCallback; split; reflexivity.
Qed.

Lemma same_fid_same_element (l : list Observation) (o1 o2 : Observation) :
  NoDup (fid <$> l) → o1 ∈ l → o2 ∈ l → fid o1 = fid o2 → o1 = o2.
Proof.
  induction l as [|o l IH]; [by intros _ ?%elem_of_nil|].
  rewrite fmap_cons, NoDup_cons. intros [Hnot Hnd].
  intros [->|H1]%elem_of_cons [->|H2]%elem_of_cons Heq; auto.
  - exfalso. apply Hnot. rewrite Heq. by apply list_elem_of_fmap_2.
  - exfalso. apply Hnot. rewrite <- Heq. by apply list_elem_of_fmap_2.
Qed.

(** C4 as amended: the vector passed to [fiducialMap.update] is in
    ascending identifier order for every batch, and for a batch whose
    identifiers are pairwise distinct it is the same vector for every
    order in which the detector emits the transforms. *)
Theorem sorted_vector_by_identifier :
  (∀ slam msg,
     ∃ obs, update_calls (transformCallback slam msg) = [(obs, Msg.stamp (Msg.header msg))]
            ∧ StronglySorted fid_le obs)
  ∧ (∀ slam hdr ts ts',
       ts ≡ₚ ts' → NoDup (Msg.fiducial_id <$> ts) →
       update_calls (transformCallback slam (Msg.mkFiducialTransformArray hdr ts))
       = update_calls (transformCallback slam (Msg.mkFiducialTransformArray hdr ts'))).
Proof.
  split.
  - intros slam msg. exists (sorted_observations slam msg).
    split; [apply update_calls_transformCallback|].
    rewrite sorted_observations_eq. apply std_sort_sorted.
  - intros slam hdr ts ts' Hperm Hnd.
    rewrite !update_calls_transformCallback. cbn [Msg.header Msg.stamp].
    do 2 f_equal. rewrite !sorted_observations_eq. cbn [Msg.header Msg.transforms].
    assert (Hfid : fid <$> constructed slam hdr ts = Msg.fiducial_id <$> ts).
    { unfold constructed. by rewrite <- list_fmap_compose. }
    apply (StronglySorted_unique_strong fid_le); try apply std_sort_sorted.
    + intros o1 o2 H1 H2 Hle1 Hle2.
      apply (same_fid_same_element (constructed slam hdr ts)).
      * by rewrite Hfid.
      * by rewrite <- (std_sort_perm compareObservation).
      * rewrite std_sort_perm in H2. unfold constructed in *. by rewrite Hperm.
      * unfold fid_le in *. lia.
    + rewrite !std_sort_perm. unfold constructed. by rewrite Hperm.
Qed.

Lemma sorted_vector_by_identifier_witness :
  update_calls (transformCallback (Sample.slam true false)
     (Sample.batch [Sample.sighting 7 2 1024 0.5; Sample.sighting 3 4 2048 0.5]))
  = update_calls (transformCallback (Sample.slam true false)
     (Sample.batch [Sample.sighting 3 4 2048 0.5; Sample.sighting 7 2 1024 0.5])).
Proof.
  apply (proj2 sorted_vector_by_identifier).
  - apply perm_swap.
  - cbn. apply NoDup_cons. split; [|apply NoDup_singleton].
    intros Hin%list_elem_of_singleton. discriminate.
Defined.

Lemma shutdown_saves_unless_read_only_witness :
  MapModel.durable
    (MapModel.exec_trace Sample.first_pose Sample.same_pose Sample.first_pose
       Sample.same_pose
       (trace (main (Sample.handle [("read_only_map", true)])
                    [Sample.quiet [Sample.batch [Sample.sighting 7 2 1024 0.5]];
                     Sample.interrupted]))
       (Sample.world true))
  = MapModel.durable (Sample.world true).
Proof.
  apply (proj2 (proj2 shutdown_saves_unless_read_only)). reflexivity.
Defined.

(** ** The duplicate tie-break *)





(** The scenario of the specification: an empty read-write map, a batch
    that sees fiducial 7, then a second batch that sees it again. *)
Example first_and_second_sighting :
  let fuse := MapModel.update Sample.first_pose Sample.same_pose Sample.first_pose
                Sample.same_pose in
  let seen d := sorted_observations (Sample.slam true false)
                  (Sample.batch [Sample.sighting 7 d 1024 0.5]) in
  let r1 := fuse (seen 2%float) (Msg.mkTime 10 0) (MapModel.empty_map false) in
  let r2 := fuse (seen 4%float) (Msg.mkTime 11 0) r1.2 in
  r1.1 = None
  ∧ MapModel.observation_count <$> (MapModel.landmarks r1.2 !! 7) = Some 1%nat
  ∧ is_Some r2.1
  ∧ MapModel.observation_count <$> (MapModel.landmarks r2.2 !! 7) = Some 2%nat
  ∧ MapModel.tick r2.2 = Some r2.2.
Proof. vm_compute. repeat split; eauto. Qed.
(** * Further properties of the node *)

(** ** What an Observation carries *)

(** X1: every Observation of the vector passed to [fiducialMap.update]
    carries the stamp and the frame name of the message header, and the
    time argument of the call is that same stamp. *)
Theorem observations_share_stamp_and_frame slam msg :
  ∃ obs,
    update_calls (transformCallback slam msg) = [(obs, Msg.stamp (Msg.header msg))]
    ∧ Forall (λ o, stamp_ (T_camFid o) = Msg.stamp (Msg.header msg)
                   ∧ frame_id_ (T_camFid o) = Msg.frame_id (Msg.header msg)) obs.
Proof.
  exists (sorted_observations slam msg).
  split; [apply update_calls_transformCallback|].
  rewrite sorted_observations_perm. unfold constructed.
  apply Forall_fmap, Forall_forall. by intros ft _.
Qed.

(** X2: the transform of every Observation is the transform the detector
    reported for that identifier, translation and all four rotation
    components as they came; [fiducialsFlat] changes no call of the
    callback. *)
Theorem reported_transform_passed_unchanged slam msg b :
  (∃ obs,
     update_calls (transformCallback slam msg) = [(obs, Msg.stamp (Msg.header msg))]
     ∧ (λ o, (fid o, obs_transform o)) <$> obs ≡ₚ
       (λ ft, (Msg.fiducial_id ft, Msg.transform ft)) <$> Msg.transforms msg)
  ∧ transformCallback (with_flat b slam) msg = transformCallback slam msg.
Proof.
  split; [|reflexivity].
  exists (sorted_observations slam msg).
  split; [apply update_calls_transformCallback|].
  rewrite sorted_observations_perm. unfold constructed.
  by rewrite <- list_fmap_compose.
Qed.

(** X3: what the callback passes to [fiducialMap.update] depends on the
    node through the weighting policy and the scale only: nodes that
    agree on both pass the same vector, whatever their read-only,
    flattening, verbosity and subscription fields are. *)
Theorem fusion_input_depends_on_policy_and_scale n1 n2 msg :
  use_fiducial_area_as_weight n1 = use_fiducial_area_as_weight n2 →
  weighting_scale n1 = weighting_scale n2 →
  update_calls (transformCallback n1 msg) = update_calls (transformCallback n2 msg).
Proof.
  intros Hpolicy Hscale. rewrite !update_calls_transformCallback.
  do 2 f_equal. rewrite !sorted_observations_eq. f_equal.
  unfold constructed. apply list_fmap_ext. intros _ ft _.
  unfold sighting_variance. by rewrite Hpolicy, Hscale.
Qed.

Lemma fusion_input_depends_on_policy_and_scale_witness :
  update_calls (transformCallback
     (mkFiducialSlam None None true 1e9 true true true)
     (Sample.batch [Sample.sighting 7 2 1024 0.5; Sample.sighting 3 4 2048 0.5]))
  = update_calls (transformCallback (Sample.slam true false)
     (Sample.batch [Sample.sighting 7 2 1024 0.5; Sample.sighting 3 4 2048 0.5])).
Proof.
  apply fusion_input_depends_on_policy_and_scale; reflexivity.
Defined.

(** X4: a message without transforms is not dropped: the callback logs
    nothing and calls [fiducialMap.update] once, with the empty vector and
    the stamp of the header. *)
Theorem empty_batch_still_updates slam hdr :
  transformCallback slam (Msg.mkFiducialTransformArray hdr []) = [MapUpdate [] (Msg.stamp hdr)].
Proof. unfold transformCallback. simpl. by destruct (verboseInfo slam). Qed.

(** ** Order *)

Lemma fid_constructed slam hdr ts :
  fid <$> constructed slam hdr ts = Msg.fiducial_id <$> ts.
Proof. unfold constructed. by rewrite <- list_fmap_compose. Qed.

(** X5: the identifiers of the vector passed to [fiducialMap.update], in
    order, are the sorted identifiers of the message: the order in which
    identifiers are fused depends on the reported identifiers alone, not
    on the node's configuration nor on the transforms. *)
Theorem identifier_order_from_identifiers_alone slam msg :
  ∃ obs,
    update_calls (transformCallback slam msg) = [(obs, Msg.stamp (Msg.header msg))]
    ∧ fid <$> obs = std_sort Z.ltb (Msg.fiducial_id <$> Msg.transforms msg).
Proof.
  exists (sorted_observations slam msg).
  split; [apply update_calls_transformCallback|].
  rewrite sorted_observations_eq, <- (fid_constructed slam (Msg.header msg)).
  apply (std_sort_keys fid).
Qed.

(** X6: when the detector emits the transforms in strictly ascending
    identifier order, the sort changes nothing: the vector passed to
    [fiducialMap.update] lists the observations in the order of emission. *)
Theorem ascending_batch_keeps_order slam hdr ts :
  StronglySorted Z.lt (Msg.fiducial_id <$> ts) →
  update_calls (transformCallback slam (Msg.mkFiducialTransformArray hdr ts))
  = [(constructed slam hdr ts, Msg.stamp hdr)].
Proof.
  intros Hasc. rewrite update_calls_transformCallback, sorted_observations_eq.
  cbn [Msg.header Msg.transforms Msg.stamp]. do 2 f_equal.
  rewrite <- (fid_constructed slam hdr) in Hasc.
  assert (Hsorted : StronglySorted fid_le (constructed slam hdr ts)
                    ∧ NoDup (fid <$> constructed slam hdr ts)).
  { induction (constructed slam hdr ts) as [|o l IH]; [split; constructor|].
    rewrite fmap_cons in Hasc. apply StronglySorted_cons in Hasc as [Ho Hl].
    destruct (IH Hl) as [IHs IHn]. rewrite Forall_fmap in Ho. split.
    - constructor; [done|]. eapply Forall_impl; [exact Ho|].
      intros o' Hlt. unfold fid_le. simpl in Hlt. lia.
    - rewrite fmap_cons. apply NoDup_cons. split; [|done].
      intros (o' & Heq & Hin)%list_elem_of_fmap.
      rewrite Forall_forall in Ho. specialize (Ho o' Hin). simpl in Ho. lia. }
  destruct Hsorted as [Hs Hnd].
  apply (StronglySorted_unique_strong fid_le); [|apply std_sort_sorted|done|apply std_sort_perm].
  intros o1 o2 H1 H2 Hle1 Hle2.
  apply (same_fid_same_element (constructed slam hdr ts)); [done| |done|].
  - by rewrite <- (std_sort_perm compareObservation).
  - unfold fid_le in *. lia.
Qed.

Lemma ascending_batch_keeps_order_witness :
  update_calls (transformCallback (Sample.slam true false)
     (Msg.mkFiducialTransformArray Sample.hdr
        [Sample.sighting 3 4 2048 0.5; Sample.sighting 7 2 1024 0.5]))
  = [(constructed (Sample.slam true false) Sample.hdr
        [Sample.sighting 3 4 2048 0.5; Sample.sighting 7 2 1024 0.5],
      Msg.stamp Sample.hdr)].
Proof.
  apply ascending_batch_keeps_order.
  repeat constructor.
Defined.

(** ** Verbose logging *)

Lemma objerr_ids_app evs1 evs2 : objerr_ids (evs1 ++ evs2) = objerr_ids evs1 ++ objerr_ids evs2.
Proof. apply omap_app. Qed.

Lemma xyz_ids_app evs1 evs2 : xyz_ids (evs1 ++ evs2) = xyz_ids evs1 ++ xyz_ids evs2.
Proof. apply omap_app. Qed.

Lemma count_info_all evs :
  Forall (λ e, is_info e = true) evs → count is_info evs = length evs.
Proof.
  induction 1 as [|e evs He _ IH]; [done|]. by rewrite count_cons, He, IH.
Qed.

Lemma xyz_ids_entry_lines slam ts : xyz_ids (entry_lines slam ts) = [].
Proof.
  unfold entry_lines. destruct (verboseInfo slam); [|done].
  induction ts as [|ft ts IH]; [done|]. by rewrite fmap_cons.
Qed.

Lemma xyz_ids_walk_lines slam obs :
  xyz_ids (walk_lines slam obs) = if verboseInfo slam then fid <$> obs else [].
Proof.
  unfold walk_lines. destruct (verboseInfo slam); [|done].
  induction obs as [|o obs IH]; [done|].
  rewrite !fmap_cons. unfold xyz_ids in *. cbn [omap list_omap]. by rewrite IH.
Qed.

Lemma objerr_ids_entry_lines slam ts :
  objerr_ids (entry_lines slam ts)
  = if verboseInfo slam then Msg.fiducial_id <$> ts else [].
Proof.
  unfold entry_lines. destruct (verboseInfo slam); [|done].
  induction ts as [|ft ts IH]; [done|].
  rewrite !fmap_cons. unfold objerr_ids in *. cbn [omap list_omap]. by rewrite IH.
Qed.

Lemma objerr_ids_walk_lines slam obs : objerr_ids (walk_lines slam obs) = [].
Proof.
  unfold walk_lines. destruct (verboseInfo slam); [|done].
  induction obs as [|o obs IH]; [done|]. by rewrite fmap_cons.
Qed.

(** X7: with [verboseInfo] set the callback logs two lines per transform
    before it calls [fiducialMap.update]: the obj_err lines name the
    identifiers in the order of emission, the XYZ lines name them in
    ascending order. *)
Theorem verbose_lines_in_order slam msg :
  verboseInfo slam = true →
  count is_info (transformCallback slam msg) = (2 * length (Msg.transforms msg))%nat
  ∧ objerr_ids (transformCallback slam msg) = Msg.fiducial_id <$> Msg.transforms msg
  ∧ xyz_ids (transformCallback slam msg)
    = std_sort Z.ltb (Msg.fiducial_id <$> Msg.transforms msg)
  ∧ StronglySorted Z.le (xyz_ids (transformCallback slam msg))
  ∧ last (transformCallback slam msg)
    = Some (MapUpdate (sorted_observations slam msg) (Msg.stamp (Msg.header msg))).
Proof.
  intros Hverbose.
  assert (Hids : fid <$> sorted_observations slam msg
                 = std_sort Z.ltb (Msg.fiducial_id <$> Msg.transforms msg)).
  { rewrite sorted_observations_eq, <- (fid_constructed slam (Msg.header msg)).
    apply (std_sort_keys fid). }
  assert (Hxyz : xyz_ids (transformCallback slam msg) = fid <$> sorted_observations slam msg).
  { rewrite transformCallback_eq, !xyz_ids_app, xyz_ids_entry_lines, xyz_ids_walk_lines.
    rewrite Hverbose. simpl. by rewrite app_nil_r. }
  split; [|split; [|split; [|split]]].
  - rewrite transformCallback_eq, !count_app.
    rewrite (count_info_all _ (entry_lines_info _ _)), (count_info_all _ (walk_lines_info _ _)).
    unfold entry_lines, walk_lines. rewrite Hverbose, !length_fmap.
    rewrite (Permutation_length (sorted_observations_perm slam msg)).
    unfold constructed. rewrite length_fmap. cbn. lia.
  - rewrite transformCallback_eq, !objerr_ids_app, objerr_ids_entry_lines,
      objerr_ids_walk_lines, Hverbose. simpl. by rewrite app_nil_r.
  - by rewrite Hxyz.
  - rewrite Hxyz. clear Hids Hxyz.
    pose proof (std_sort_sorted (constructed slam (Msg.header msg) (Msg.transforms msg))) as Hs.
    rewrite <- sorted_observations_eq in Hs.
    induction Hs as [|o l _ IH Ho]; [constructor|].
    rewrite fmap_cons. constructor; [done|]. by apply Forall_fmap.
  - rewrite transformCallback_eq, !app_assoc. apply last_snoc.
Qed.

Lemma verbose_lines_in_order_witness :
  let slam := with_verbose true (Sample.slam true false) in
  let msg := Sample.batch [Sample.sighting 7 2 1024 0.5; Sample.sighting 3 4 2048 0.5] in
  count is_info (transformCallback slam msg) = (2 * length (Msg.transforms msg))%nat
  ∧ objerr_ids (transformCallback slam msg) = Msg.fiducial_id <$> Msg.transforms msg
  ∧ xyz_ids (transformCallback slam msg)
    = std_sort Z.ltb (Msg.fiducial_id <$> Msg.transforms msg)
  ∧ StronglySorted Z.le (xyz_ids (transformCallback slam msg))
  ∧ last (transformCallback slam msg)
    = Some (MapUpdate (sorted_observations slam msg) (Msg.stamp (Msg.header msg))).
Proof.
  intros slam msg. apply verbose_lines_in_order. reflexivity.
Defined.

(** ** Construction *)

(** X8: the constructor wires the node to /fiducial_transforms in exactly
    one direction, with a queue of one: it advertises the topic and holds
    the publisher when [do_pose_estimation] is set, and subscribes and
    holds the subscription when it is not; never both, never neither.
    The map member is constructed before anything else is done. *)
Theorem subscribes_or_advertises nh :
  let dpe := param_bool nh "do_pose_estimation" false in
  let n := (FiducialSlam_new nh).1 in
  let evs := (FiducialSlam_new nh).2 in
  (ft_sub n, ftPub n) =
    (if dpe then (None, Some ("/fiducial_transforms", 1))
     else (Some ("/fiducial_transforms", 1), None))
  ∧ count is_subscribe evs = (if dpe then 0 else 1)%nat
  ∧ count is_advertise evs = (if dpe then 1 else 0)%nat
  ∧ (Advertise "/fiducial_transforms" 1 ∈ evs ↔ dpe = true)
  ∧ (Subscribe "/fiducial_transforms" 1 ∈ evs ↔ dpe = false)
  ∧ head evs = Some MapConstruct.
Proof.
  intros dpe n evs. unfold n, evs, dpe. rewrite FiducialSlam_new_eq. cbn [fst snd ft_sub ftPub].
  destruct (param_bool nh "do_pose_estimation" false); cbn.
  - repeat split; try done.
    + intros _. set_solver.
    + intros Hin. repeat (apply elem_of_cons in Hin as [Hin|Hin]; [discriminate|]).
      by apply elem_of_nil in Hin.
  - repeat split; try done.
    + intros Hin. repeat (apply elem_of_cons in Hin as [Hin|Hin]; [discriminate|]).
      by apply elem_of_nil in Hin.
    + intros _. set_solver.
Qed.

(** X9: on a parameter server that sets none of the parameters, the node
    comes up with the error policy and a scale of 1e9, read-write, not
    flat, not verbose and subscribed, so every sighting gets the variance
    [1e9 * object_error]. *)
Theorem default_configuration nh ft :
  (∀ name d, param_bool nh name d = d) →
  (∀ name d, param_double nh name d = d) →
  (FiducialSlam_new nh).1
    = mkFiducialSlam (Some ("/fiducial_transforms", 1)) None false 1e9 false false false
  ∧ sighting_variance (FiducialSlam_new nh).1 ft = (1e9 * Msg.object_error ft)%float.
Proof.
  intros Hbool Hdouble. rewrite FiducialSlam_new_eq. cbn [fst].
  by rewrite !Hbool, !Hdouble.
Qed.

Lemma default_configuration_witness :
  (FiducialSlam_new (Sample.handle [])).1
    = mkFiducialSlam (Some ("/fiducial_transforms", 1)) None false 1e9 false false false
  ∧ sighting_variance (FiducialSlam_new (Sample.handle [])).1 (Sample.sighting 7 2 1024 0.5)
    = (1e9 * Msg.object_error (Sample.sighting 7 2 1024 0.5))%float.
Proof.
  apply default_configuration; intros name d; reflexivity.
Defined.

(** ** Shutdown *)

(** X10: whatever the process holds, the handler calls [ros::shutdown()]
    as its last call and leaves [ros::ok()] false and the node pointer as
    it was; before that it makes at most one call, and none at all when
    the node pointer is null. *)
Theorem handler_always_shuts_down p :
  ∃ evs,
    trace (mySigintHandler p) = trace p ++ evs ++ [RosShutdown]
    ∧ ok (mySigintHandler p) = false
    ∧ node (mySigintHandler p) = node p
    ∧ (length evs ≤ 1)%nat
    ∧ count is_shutdown evs = 0%nat
    ∧ match node p with Some _ => True | None => evs = [] end.
Proof.
  rewrite mySigintHandler_eq. cbn [trace ok node]. unfold handler_events.
  destruct (node p) as [n|].
  - destruct (use_read_only_map n); eexists; (split; [reflexivity|]); cbn; repeat split; lia.
  - exists []. cbn. repeat split; lia.
Qed.

Lemma sigint_stops t : sigint t = true → stops t = true.
Proof. unfold stops. by intros ->. Qed.

Lemma executed_after_sigint s1 t s2 :
  sigint t = true → executed (s1 ++ t :: s2) = executed (s1 ++ [t]).
Proof.
  intros Ht%sigint_stops. induction s1 as [|u s1 IH]; simpl.
  - by rewrite Ht.
  - destruct (stops u); [done|]. by rewrite IH.
Qed.

Lemma existsb_sigint_app s1 t s2 :
  sigint t = true → existsb stops (s1 ++ t :: s2) = true.
Proof.
  intros Ht%sigint_stops. rewrite existsb_app. simpl. rewrite Ht. by rewrite orb_true_r.
Qed.

(** X11: once SIGINT has been handled the loop ends with the turn it was
    handled in: the node runs exactly as if the schedule had stopped
    there, and no message of a later turn is dispatched. *)
Theorem loop_ends_after_sigint nh s1 t s2 :
  sigint t = true →
  main nh (s1 ++ t :: s2) = main nh (s1 ++ [t])
  ∧ ok (main nh (s1 ++ t :: s2)) = false.
Proof.
  intros Ht. rewrite !main_eq.
  rewrite (executed_after_sigint s1 t s2 Ht), !existsb_sigint_app by done. done.
Qed.

Lemma loop_ends_after_sigint_witness :
  main (Sample.handle [])
    ([Sample.quiet []] ++ Sample.interrupted
       :: [Sample.quiet [Sample.batch [Sample.sighting 7 2 1024 0.5]]])
  = main (Sample.handle []) ([Sample.quiet []] ++ [Sample.interrupted])
  ∧ ok (main (Sample.handle [])
          ([Sample.quiet []] ++ Sample.interrupted
             :: [Sample.quiet [Sample.batch [Sample.sighting 7 2 1024 0.5]]])) = false.
Proof.
  apply loop_ends_after_sigint. reflexivity.
Defined.

(** X12: the node calls [ros::shutdown()] from the SIGINT handler and
    from nowhere else: a run makes exactly one such call for every
    delivery of SIGINT, so two deliveries before the loop tests
    [ros::ok()] again give two calls, and in a read-write session two
    saves; the constructor, the callbacks and the tick make none. *)
Theorem shutdown_once_per_sigint nh sched :
  count is_shutdown (trace (main nh sched)) = sigints (executed sched)
  ∧ ∀ p, count is_shutdown (trace (mySigintHandler (mySigintHandler p)))
         = (2 + count is_shutdown (trace p))%nat.
Proof.
  split.
  - rewrite main_eq. cbn [trace].
    rewrite count_app, count_turns, count_handler_shutdown, construction_calls by done.
    destruct (param_bool nh "do_pose_estimation" false); cbn; lia.
  - intros p. rewrite !mySigintHandler_eq. cbn [trace node].
    rewrite !count_app, !count_handler_shutdown. lia.
Qed.

(** ** The sort on the sample batches *)

(** On the sixteen sightings the insertion sort of the library, run on the
    range itself, gives what [insertion_sort] gives. *)
Example insertion_sort_on_sixteen :
  let l := constructed (Sample.slam true false) Sample.hdr Sample.crowd_less in
  length l = 16%nat
  ∧ range_insertion_sort compareObservation l 0 (length l)
    = Some (insertion_sort compareObservation l)
  ∧ introsort compareObservation l = Some (std_sort compareObservation l).
Proof. vm_compute. repeat split; reflexivity. Qed.

(** On the seventeen sightings the introsort, run on the range itself,
    gives what [std_sort] reads off the sorted positions, and that is not
    the insertion sorted range. *)
Example introsort_on_seventeen :
  let l := constructed (Sample.slam true false) Sample.hdr Sample.crowd in
  introsort compareObservation l = Some (std_sort compareObservation l)
  ∧ (λ o, Msg.x (getOrigin o)) <$> filter (λ o, fid o = 6) (std_sort compareObservation l)
    = [10%float; 9%float]
  ∧ (λ o, Msg.x (getOrigin o)) <$> filter (λ o, fid o = 6) (insertion_sort compareObservation l)
    = [9%float; 10%float].
Proof. vm_compute. repeat split; reflexivity. Qed.
